(** * Poco::UniqueExpireStrategy: a shallow embedding and its invariants

    Source: libs/poco/include/Poco/UniqueExpireStrategy.h

    The strategy keeps two containers in step:
    - [_keyIndex], a [std::multimap<Timestamp, TKey>] ordered by timestamp;
    - [_keys], a [std::map<TKey, IndexIterator>] whose values are iterators
      into [_keyIndex].

    A multimap iterator is a stable reference to one node of the tree: it
    stays valid until that very node is erased.  Each node therefore carries
    an identifier here, and an [IndexIterator] is such an identifier.  Erasing
    or dereferencing an iterator that designates no node is undefined
    behaviour in C++; every operation is a computation in a state monad with
    failure, and failure stands for that undefined behaviour. *)

From stdpp Require Import base option list gmap sets fin_maps.
From Stdlib Require Import ZArith Lia Sorting.Sorted.

Local Open Scope Z_scope.
#[local] Set Warnings "-clear-no-such-hyp".

(** Modelled from the spec: [Poco::Timestamp] (Poco/Timestamp.h is not part
    of the sources at hand), an absolute point in time. The strategy only
    stores timestamps and compares them with [<] and [<=], so the integer
    count behind a timestamp is all that matters. *)
Definition Timestamp := Z.

(** The capability required of [TValue]:
    [const Poco::Timestamp& getExpiration() const]. *)
Class Expiring (TValue : Type) := getExpiration : TValue → Timestamp.

Section UniqueExpireStrategy.

Context {TKey : Type} `{Countable TKey}.
Context {TValue : Type} `{Expiring TValue}.

(** ** Arguments of the callbacks *)

(** Modelled from the spec: [KeyValueArgs<TKey, TValue>] (Poco/KeyValueArgs.h
    is not part of the sources at hand), the key and the value an add event
    passes, read with [key()] and [value()]. *)
Record KeyValueArgs := mkKeyValueArgs { key : TKey; value : TValue }.

(** Modelled from the spec: [ValidArgs<TKey>] (Poco/ValidArgs.h is not part
    of the sources at hand), the key under scrutiny and the mutable
    valid/invalid outcome slot; [invalidate()] sets the slot to invalid. *)
Record ValidArgs := mkValidArgs { va_key : TKey; isValid : bool }.

Definition invalidate (args : ValidArgs) : ValidArgs :=
  {| va_key := va_key args; isValid := false |}.

(** ** The time index: [std::multimap<Timestamp, TKey>] *)

(** [TimeIndex::iterator]: the identifier of the node it designates. *)
Abbreviation IndexIterator := nat (only parsing).

(** One node of the multimap; [first] and [second] are the members of the
    stored [std::pair]. *)
Record Node := mkNode { handle : IndexIterator; first : Timestamp; second : TKey }.

Abbreviation TimeIndex := (list Node) (only parsing).

(** The identifier given to a newly allocated node: one that no node of the
    container carries at the time of the insertion. *)
Definition fresh (l : TimeIndex) : IndexIterator :=
  S (foldr Nat.max 0%nat (handle <$> l)).

(** Position of a new node: after every node whose timestamp is not greater
    (the upper bound of the equal range). *)
Fixpoint place (n : Node) (l : TimeIndex) : TimeIndex :=
  match l with
  | [] => [n]
  | m :: l' => if first n <? first m then n :: m :: l' else m :: place n l'
  end.

(** [multimap::insert(std::make_pair(t, k))]: the iterator to the new node
    and the container. *)
Definition mm_insert (p : Timestamp * TKey) (l : TimeIndex) : IndexIterator * TimeIndex :=
  let it := fresh l in (it, place (mkNode it p.1 p.2) l).

(** [multimap::erase(it)]: undefined when [it] designates no node. *)
Fixpoint mm_erase (it : IndexIterator) (l : TimeIndex) : option TimeIndex :=
  match l with
  | [] => None
  | m :: l' => if decide (handle m = it) then Some l' else (m ::.) <$> mm_erase it l'
  end.

(** [*it]: undefined when [it] designates no node. *)
Fixpoint mm_deref (it : IndexIterator) (l : TimeIndex) : option Node :=
  match l with
  | [] => None
  | m :: l' => if decide (handle m = it) then Some m else mm_deref it l'
  end.

(** ** The strategy object *)

Record State := mkState {
  _keys : gmap TKey IndexIterator;
  _keyIndex : TimeIndex
}.

(** A freshly constructed strategy. *)
Definition init : State := {| _keys := ∅; _keyIndex := [] |}.

(** Computations over the strategy object; [None] is undefined behaviour. *)
Definition M (A : Type) : Type := State → option (A * State).

Definition ret {A} (a : A) : M A := λ s, Some (a, s).

Definition bind {A B} (c : M A) (k : A → M B) : M B :=
  λ s, match c s with
       | Some (a, s') => k a s'
       | None => None
       end.

Notation "'let*' x ':=' c 'in' k" := (bind c (λ x, k))
  (at level 10, x name, c at level 100, k at level 200).
Notation "c1 '>>' c2" := (bind c1 (λ _, c2))
  (at level 100, c2 at level 200, right associativity).

(** An iterator of [_keys] designates the element stored under a key;
    [None] is [_keys.end()]. *)
Definition Iterator := option TKey.

(** [_keyIndex.insert(p)] *)
Definition keyIndex_insert (p : Timestamp * TKey) : M IndexIterator :=
  λ s, let '(it, l) := mm_insert p (_keyIndex s) in
       Some (it, {| _keys := _keys s; _keyIndex := l |}).

(** [_keyIndex.erase(it)] *)
Definition keyIndex_erase (it : IndexIterator) : M unit :=
  λ s, l ← mm_erase it (_keyIndex s);
       Some (tt, {| _keys := _keys s; _keyIndex := l |}).

(** [*it] for an iterator of [_keyIndex] *)
Definition keyIndex_deref (it : IndexIterator) : M Node :=
  λ s, n ← mm_deref it (_keyIndex s); Some (n, s).

(** [_keyIndex.clear()] *)
Definition keyIndex_clear : M unit :=
  λ s, Some (tt, {| _keys := _keys s; _keyIndex := [] |}).

(** [_keys.find(k)] *)
Definition keys_find (k : TKey) : M Iterator :=
  λ s, Some (match _keys s !! k with Some _ => Some k | None => None end, s).

(** [_keys.insert(std::make_pair(k, it))]: nothing is stored when [k] is
    present; the result is the iterator to the element under [k] and whether
    the insertion took place. *)
Definition keys_insert (k : TKey) (it : IndexIterator) : M (TKey * bool) :=
  λ s, match _keys s !! k with
       | Some _ => Some ((k, false), s)
       | None => Some ((k, true), {| _keys := <[k := it]> (_keys s); _keyIndex := _keyIndex s |})
       end.

(** [e->second], read through an iterator of [_keys] *)
Definition keys_second (e : TKey) : M IndexIterator :=
  λ s, it ← _keys s !! e; Some (it, s).

(** [e->second = it] *)
Definition keys_assign (e : TKey) (it : IndexIterator) : M unit :=
  λ s, _ ← _keys s !! e;
       Some (tt, {| _keys := <[e := it]> (_keys s); _keyIndex := _keyIndex s |}).

(** [_keys.erase(e)] *)
Definition keys_erase (e : TKey) : M unit :=
  λ s, _ ← _keys s !! e;
       Some (tt, {| _keys := delete e (_keys s); _keyIndex := _keyIndex s |}).

(** [_keys.clear()] *)
Definition keys_clear : M unit :=
  λ s, Some (tt, {| _keys := ∅; _keyIndex := _keyIndex s |}).

(** ** The callbacks *)

Definition onAdd (args : KeyValueArgs) : M unit :=
  let expire := getExpiration (value args) in
  let* it := keyIndex_insert (expire, key args) in
  let* stat := keys_insert (key args) it in
  if negb stat.2 then
    let* old := keys_second stat.1 in
    keyIndex_erase old >>
    keys_assign stat.1 it
  else ret tt.

Definition onRemove (k : TKey) : M unit :=
  let* it := keys_find k in
  match it with
  | Some e =>
      let* pos := keys_second e in
      keyIndex_erase pos >>
      keys_erase e
  | None => ret tt
  end.

Definition onGet (k : TKey) : M unit := ret tt.

Definition onClear : M unit :=
  keys_clear >> keyIndex_clear.

(** [now] is the value of the [Timestamp now;] local, the clock read at the
    call; the updated [args] is the result. *)
Definition onIsValid (now : Timestamp) (args : ValidArgs) : M ValidArgs :=
  let* it := keys_find (va_key args) in
  match it with
  | Some e =>
      let* pos := keys_second e in
      let* n := keyIndex_deref pos in
      if first n <=? now then ret (invalidate args) else ret args
  | None => ret args
  end.

(** The loop of [onReplace], from the node [it] designates to the end. *)
Fixpoint sweep (now : Timestamp) (l : TimeIndex) (elemsToRemove : gset TKey) : gset TKey :=
  match l with
  | [] => elemsToRemove
  | n :: l' =>
      if first n <? now then sweep now l' (elemsToRemove ∪ {[ second n ]})
      else elemsToRemove
  end.

Definition onReplace (now : Timestamp) (elemsToRemove : gset TKey) : M (gset TKey) :=
  λ s, Some (sweep now (_keyIndex s) elemsToRemove, s).

(** ** Runs of the strategy *)

(** One call made by the cache. *)
Inductive Op :=
| Add (args : KeyValueArgs)
| Remove (k : TKey)
| Get (k : TKey)
| Clear
| IsValid (now : Timestamp) (args : ValidArgs)
| Replace (now : Timestamp) (elemsToRemove : gset TKey).

Definition exec (o : Op) : M unit :=
  match o with
  | Add args => onAdd args
  | Remove k => onRemove k
  | Get k => onGet k
  | Clear => onClear
  | IsValid now args => onIsValid now args >> ret tt
  | Replace now elems => onReplace now elems >> ret tt
  end.

(** The state a run of calls leaves, if no call is undefined. *)
Fixpoint run (ops : list Op) (s : State) : option State :=
  match ops with
  | [] => Some s
  | o :: ops' =>
      match exec o s with
      | Some (_, s') => run ops' s'
      | None => None
      end
  end.

(** [onAdd(k, v)] for each value of [vs] in turn. *)
Definition adds (k : TKey) (vs : list TValue) : list Op :=
  (λ v, Add {| key := k; value := v |}) <$> vs.

(** States the strategy can be in: those a run from [init] leaves. *)
Inductive reachable : State → Prop :=
| reachable_init : reachable init
| reachable_step s o s' : reachable s → exec o s = Some (tt, s') → reachable s'.

(** ** The representation invariant *)

Definition time_le (a b : Node) : Prop := first a ≤ first b.

Record wf (s : State) : Prop := mkWf {
  wf_handles : NoDup (handle <$> _keyIndex s);
  wf_sorted : StronglySorted time_le (_keyIndex s);
  wf_keys : ∀ k it, _keys s !! k = Some it →
            ∃ t, mkNode it t k ∈ _keyIndex s;
  wf_nodes : ∀ n, n ∈ _keyIndex s → _keys s !! second n = Some (handle n)
}.

(** The nodes of the time index that carry key [k], and the others. *)
Definition entries (k : TKey) (l : TimeIndex) : TimeIndex :=
  filter (λ n, second n = k) l.

Definition others (k : TKey) (l : TimeIndex) : TimeIndex :=
  filter (λ n, second n ≠ k) l.

(** The nodes whose timestamp lies strictly before [now]. *)
Definition expired (now : Timestamp) (l : TimeIndex) : TimeIndex :=
  filter (λ n, first n < now) l.

(** The calls whose callback writes to a container: [onAdd], [onRemove] and
    [onClear]. [onGet], [onIsValid] and [onReplace] only read. *)
Definition mutates (o : Op) : bool :=
  match o with
  | Add _ | Remove _ | Clear => true
  | Get _ | IsValid _ _ | Replace _ _ => false
  end.

(** The timestamp on record for each tracked key, read the way [onIsValid]
    reads it: [it->second->first]. *)
Definition recorded (s : State) : gmap TKey Timestamp :=
  omap (λ it, first <$> mm_deref it (_keyIndex s)) (_keys s).

(** The pairs the time index stores, in its order. *)
Definition contents (l : TimeIndex) : list (Timestamp * TKey) :=
  (λ n, (first n, second n)) <$> l.

End UniqueExpireStrategy.

Arguments KeyValueArgs : clear implicits.
Arguments ValidArgs : clear implicits.
Arguments Node : clear implicits.
Abbreviation IndexIterator := nat (only parsing).
Abbreviation TimeIndex TKey := (list (Node TKey)) (only parsing).
Arguments State TKey {_ _}.
Arguments M TKey {_ _} A.
Arguments Op TKey {_ _} TValue.
Arguments init {TKey _ _}.

(** ** A concrete instance: sessions keyed by number *)

Module Demo.

Record Session := mkSession { user : nat; expires : Timestamp }.

#[global] Instance Session_expiring : Expiring Session := expires.

Definition add (k : nat) (t : Timestamp) : Op nat Session :=
  Add (mkKeyValueArgs k (mkSession 0 t)).

(** Three keys, added out of time order. *)
Definition three : State nat :=
  {| _keys := {[ 1%nat := 1%nat; 2%nat := 2%nat; 3%nat := 3%nat ]};
     _keyIndex := [ mkNode 2%nat 1 2%nat; mkNode 1%nat 10 1%nat;
                    mkNode 3%nat 20 3%nat ] |}.

(** The candidates a sweep at [now] reports after the calls [ops]. *)
Definition candidates (ops : list (Op nat Session)) (now : Timestamp) : option (gset nat) :=
  match run ops init with
  | Some s => fst <$> onReplace now ∅ s
  | None => None
  end.

(** Two keys that expire at the same time. *)
Definition ties : State nat :=
  {| _keys := {[ 1%nat := 1%nat; 2%nat := 2%nat ]};
     _keyIndex := [ mkNode 1%nat 10 1%nat; mkNode 2%nat 10 2%nat ] |}.

End Demo.

(** * Properties *)

Section Containers.

Context {TKey : Type} `{Countable TKey}.
Implicit Types (l : TimeIndex TKey) (n m : Node TKey) (it : IndexIterator).

Lemma handle_le_max l n :
  n ∈ l → (handle n ≤ foldr Nat.max 0 (handle <$> l))%nat.
Proof.
  induction l as [|m l IH]; intros Hn.
  - by apply elem_of_nil in Hn.
  - rewrite fmap_cons. simpl.
    apply elem_of_cons in Hn as [->|Hn]; [lia|].
    specialize (IH Hn). lia.
Qed.

Lemma fresh_not_in l : fresh l ∉ handle <$> l.
Proof.
  intros (n & Hn & Hin)%list_elem_of_fmap.
  apply handle_le_max in Hin. unfold fresh in Hn. lia.
Qed.

Lemma place_perm n l : place n l ≡ₚ n :: l.
Proof.
  induction l as [|m l IH]; simpl; [done|].
  destruct (first n <? first m); [done|].
  rewrite IH. apply Permutation_swap.
Qed.

Lemma elem_of_place n m l : m ∈ place n l ↔ m = n ∨ m ∈ l.
Proof. rewrite place_perm. apply elem_of_cons. Qed.

Lemma place_sorted n l :
  StronglySorted time_le l → StronglySorted time_le (place n l).
Proof.
  induction 1 as [|m l Hl IH Hm]; simpl.
  - repeat constructor.
  - destruct (first n <? first m) eqn:E.
    + apply Z.ltb_lt in E. constructor; [by constructor|].
      constructor; [unfold time_le; lia|].
      eapply Forall_impl; [exact Hm|]. unfold time_le. intros; lia.
    + apply Z.ltb_ge in E. constructor; [done|].
      rewrite place_perm. by constructor.
Qed.

Lemma filter_sorted (P : Node TKey → Prop) `{∀ n, Decision (P n)} l :
  StronglySorted time_le l → StronglySorted time_le (filter P l).
Proof.
  induction 1 as [|m l Hl IH Hm]; [constructor|].
  rewrite filter_cons. destruct (decide (P m)); [|done].
  constructor; [done|].
  rewrite Forall_forall in Hm |- *.
  intros x [_ Hx]%list_elem_of_filter. by apply Hm.
Qed.

Lemma filter_handles_NoDup (P : Node TKey → Prop) `{∀ n, Decision (P n)} l :
  NoDup (handle <$> l) → NoDup (handle <$> filter P l).
Proof.
  intros Hnd. eapply sublist_NoDup; [exact Hnd|].
  apply fmap_sublist, sublist_filter.
Qed.

(** Nodes are told apart by their identifiers. *)
Lemma handle_inj l n m :
  NoDup (handle <$> l) → n ∈ l → m ∈ l → handle n = handle m → n = m.
Proof.
  induction l as [|x l IH]; intros Hnd Hn Hm E.
  - by apply elem_of_nil in Hn.
  - rewrite fmap_cons in Hnd. apply NoDup_cons in Hnd as [Hx Hnd].
    apply elem_of_cons in Hn as [->|Hn], Hm as [->|Hm]; auto.
    + destruct Hx. rewrite E. by apply list_elem_of_fmap_2.
    + destruct Hx. rewrite <- E. by apply list_elem_of_fmap_2.
Qed.

Lemma filter_all (P : Node TKey → Prop) `{∀ n, Decision (P n)} l :
  (∀ n, n ∈ l → P n) → filter P l = l.
Proof.
  induction l as [|x l IH]; intros HP; [done|].
  rewrite filter_cons_True by (apply HP; left).
  f_equal. apply IH. intros n Hn. apply HP. by right.
Qed.

Lemma filter_none (P : Node TKey → Prop) `{∀ n, Decision (P n)} l :
  (∀ n, n ∈ l → ¬ P n) → filter P l = [].
Proof.
  induction l as [|x l IH]; intros HP; [done|].
  rewrite filter_cons_False by (apply HP; left).
  apply IH. intros n Hn. apply HP. by right.
Qed.

(** Erasing a node that exists removes that node and nothing else. *)
Lemma mm_erase_filter it l :
  NoDup (handle <$> l) → it ∈ handle <$> l →
  mm_erase it l = Some (filter (λ m, handle m ≠ it) l).
Proof.
  induction l as [|x l IH]; intros Hnd Hin.
  - by apply elem_of_nil in Hin.
  - rewrite fmap_cons in Hnd, Hin. apply NoDup_cons in Hnd as [Hx Hnd].
    simpl. destruct (decide (handle x = it)) as [E|E].
    + rewrite filter_cons_False by tauto. f_equal. symmetry.
      apply filter_all. intros n Hn En. apply Hx. rewrite E, <- En.
      by apply list_elem_of_fmap_2.
    + rewrite filter_cons_True by done.
      apply elem_of_cons in Hin as [->|Hin]; [done|].
      by rewrite IH.
Qed.

(** Erasing through an iterator that designates no node is undefined. *)
Lemma mm_erase_None it l : it ∉ handle <$> l → mm_erase it l = None.
Proof.
  induction l as [|x l IH]; intros Hin; [done|].
  rewrite fmap_cons, not_elem_of_cons in Hin. destruct Hin as [Hx Hin].
  simpl. destruct (decide (handle x = it)); [congruence|].
  by rewrite IH.
Qed.

Lemma mm_deref_elem it l n :
  mm_deref it l = Some n → n ∈ l ∧ handle n = it.
Proof.
  induction l as [|x l IH]; [done|]. simpl.
  destruct (decide (handle x = it)).
  - intros [= ->]. split; [left|done].
  - intros [Hn E]%IH. split; [by right|done].
Qed.

Lemma mm_deref_Some l n :
  NoDup (handle <$> l) → n ∈ l → mm_deref (handle n) l = Some n.
Proof.
  induction l as [|x l IH]; intros Hnd Hn.
  - by apply elem_of_nil in Hn.
  - simpl. destruct (decide (handle x = handle n)) as [E|E].
    + f_equal. eapply handle_inj; [exact Hnd|left|done|done].
    + rewrite fmap_cons in Hnd. apply NoDup_cons in Hnd as [_ Hnd].
      apply elem_of_cons in Hn as [->|Hn]; [done|]. by apply IH.
Qed.

Lemma filter_ext_in (P Q : Node TKey → Prop)
    `{∀ n, Decision (P n)} `{∀ n, Decision (Q n)} l :
  (∀ n, n ∈ l → P n ↔ Q n) → filter P l = filter Q l.
Proof.
  induction l as [|x l IH]; intros HPQ; [done|].
  rewrite !filter_cons.
  rewrite IH by (intros n Hn; apply HPQ; by right).
  destruct (decide (P x)) as [HP|HP], (decide (Q x)) as [HQ|HQ]; try done;
    apply HPQ in HP || apply HPQ in HQ; (done || left).
Qed.

(** Filtering and placing commute on an ordered index, for a node that the
    filter keeps ... *)
Lemma filter_place_keep (P : Node TKey → Prop) `{∀ n, Decision (P n)} n l :
  StronglySorted time_le l → P n →
  filter P (place n l) = place n (filter P l).
Proof.
  intros Hl HP. induction Hl as [|m l Hl IH Hm]; simpl.
  - by rewrite filter_cons_True.
  - destruct (first n <? first m) eqn:E.
    + rewrite filter_cons_True by done. rewrite filter_cons.
      destruct (decide (P m)); simpl; [by rewrite E|].
      apply Z.ltb_lt in E.
      destruct (filter P l) as [|x l'] eqn:Ef; [done|]. simpl.
      assert (x ∈ l) as Hx.
      { eapply (proj1 (list_elem_of_filter P l x)). rewrite Ef. left. }
      rewrite Forall_forall in Hm. specialize (Hm x Hx). unfold time_le in Hm.
      by replace (first n <? first x) with true by (symmetry; apply Z.ltb_lt; lia).
    + rewrite !filter_cons. destruct (decide (P m)); simpl; [rewrite E|];
        by rewrite IH.
Qed.

(** ... and a node that the filter drops leaves no trace. *)
Lemma filter_place_drop (P : Node TKey → Prop) `{∀ n, Decision (P n)} n l :
  ¬ P n → filter P (place n l) = filter P l.
Proof.
  intros HP. induction l as [|m l IH]; simpl.
  - by rewrite filter_cons_False.
  - destruct (first n <? first m).
    + by rewrite filter_cons_False.
    + by rewrite !filter_cons, IH.
Qed.

End Containers.

Section Sweep.

Context {TKey : Type} `{Countable TKey}.
Implicit Types (l : TimeIndex TKey) (acc : gset TKey).

(** The sweep only ever adds keys to the caller's collection. *)
Lemma sweep_mono now l acc : acc ⊆ sweep now l acc.
Proof.
  revert acc. induction l as [|n l IH]; intros acc; simpl; [done|].
  destruct (first n <? now); [|done].
  etrans; [|apply IH]. set_solver.
Qed.

(** On an ordered index the loop visits exactly the nodes that lie strictly
    before [now]: it stops at the first node that does not, and every later
    node is at least as late. *)
Lemma sweep_sorted now l acc :
  StronglySorted time_le l →
  sweep now l acc = acc ∪ list_to_set (second <$> expired now l).
Proof.
  intros Hl. revert acc.
  induction Hl as [|n l Hl IH Hn]; intros acc; cbn [sweep].
  - unfold expired. rewrite filter_nil. set_solver.
  - unfold expired. destruct (first n <? now) eqn:E.
    + apply Z.ltb_lt in E. rewrite filter_cons_True by done.
      rewrite IH, fmap_cons. unfold expired. set_solver.
    + apply Z.ltb_ge in E. rewrite filter_cons_False by lia.
      rewrite filter_none; [set_solver|].
      rewrite Forall_forall in Hn. intros m Hm%Hn. unfold time_le in Hm. lia.
Qed.

End Sweep.

Section Strategy.

Context {TKey : Type} `{Countable TKey}.
Context {TValue : Type} `{Expiring TValue}.
Implicit Types (s : State TKey) (k : TKey) (l : TimeIndex TKey).
Implicit Types (args : KeyValueArgs TKey TValue) (o : Op TKey TValue).

Ltac unfold_monad :=
  unfold bind, ret, keyIndex_insert, keyIndex_erase, keyIndex_deref,
    keyIndex_clear, keys_find, keys_insert, keys_second, keys_assign,
    keys_erase, keys_clear, mm_insert; cbn [fst snd _keys _keyIndex negb
    option_bind mbind].

(** *** What the invariant says about one key *)

Lemma wf_untracked s k :
  wf s → _keys s !! k = None → others k (_keyIndex s) = _keyIndex s.
Proof.
  intros Hwf Hk. apply filter_all. intros n Hn E.
  apply (wf_nodes _ Hwf) in Hn. rewrite E in Hn. congruence.
Qed.

Lemma wf_tracked s k it :
  wf s → _keys s !! k = Some it →
  it ∈ handle <$> _keyIndex s ∧
  filter (λ m, handle m ≠ it) (_keyIndex s) = others k (_keyIndex s).
Proof.
  intros Hwf Hk. destruct (wf_keys _ Hwf _ _ Hk) as [t Ht]. split.
  - by apply (list_elem_of_fmap_2 handle) in Ht.
  - apply filter_ext_in. intros n Hn. split; intros Hne E; apply Hne.
    + apply (wf_nodes _ Hwf) in Hn. rewrite E in Hn. congruence.
    + assert (n = mkNode it t k) as -> by
        (eapply handle_inj; [apply (wf_handles _ Hwf)|done..]).
      done.
Qed.

(** *** The effect of the mutating callbacks on a well-formed state *)

(** [onAdd] allocates a node for the pair, drops whatever node the key had,
    and points the key at the new node. *)
Lemma onAdd_spec s args :
  wf s →
  let it := fresh (_keyIndex s) in
  onAdd args s = Some (tt,
    {| _keys := <[key args := it]> (_keys s);
       _keyIndex := place (mkNode it (getExpiration (value args)) (key args))
                          (others (key args) (_keyIndex s)) |}).
Proof.
  intros Hwf it. unfold onAdd. unfold_monad.
  set (n := mkNode _ _ _).
  destruct (_keys s !! key args) as [old|] eqn:Hk; unfold_monad.
  - rewrite Hk. unfold_monad.
    destruct (wf_tracked _ _ _ Hwf Hk) as [Hold Hf].
    assert (old ≠ it) as Hne.
    { intros ->. by apply (fresh_not_in (_keyIndex s)). }
    rewrite mm_erase_filter; cycle 1.
    { rewrite place_perm, fmap_cons. apply NoDup_cons. split.
      - apply fresh_not_in.
      - apply (wf_handles _ Hwf). }
    { rewrite place_perm, fmap_cons. by right. }
    unfold_monad. rewrite Hk. unfold_monad.
    rewrite filter_place_keep;
      [|apply (wf_sorted _ Hwf)|subst n it; simpl; congruence].
    by rewrite Hf.
  - by rewrite (wf_untracked _ _ Hwf Hk).
Qed.

(** [onRemove] drops the key and its node; for an untracked key both
    containers stay as they are. *)
Lemma onRemove_spec s k :
  wf s →
  onRemove k s = Some (tt,
    {| _keys := delete k (_keys s); _keyIndex := others k (_keyIndex s) |}).
Proof.
  intros Hwf. unfold onRemove. unfold_monad.
  destruct (_keys s !! k) as [old|] eqn:Hk; unfold_monad.
  - rewrite Hk. unfold_monad.
    destruct (wf_tracked _ _ _ Hwf Hk) as [Hold Hf].
    rewrite mm_erase_filter; [|apply (wf_handles _ Hwf)|done].
    unfold_monad. rewrite Hk. unfold_monad. by rewrite Hf.
  - rewrite (wf_untracked _ _ Hwf Hk), delete_id by done. by destruct s.
Qed.

(** *** The invariant holds in every reachable state *)

Lemma wf_init : wf (init (TKey := TKey)).
Proof.
  split; simpl.
  - constructor.
  - constructor.
  - intros k it Hk. by rewrite lookup_empty in Hk.
  - intros n Hn. by apply elem_of_nil in Hn.
Qed.

Lemma wf_add s k t :
  wf s →
  wf {| _keys := <[k := fresh (_keyIndex s)]> (_keys s);
        _keyIndex := place (mkNode (fresh (_keyIndex s)) t k)
                           (others k (_keyIndex s)) |}.
Proof.
  intros Hwf. split; simpl.
  - rewrite place_perm, fmap_cons. apply NoDup_cons. split.
    + simpl. intros (m & Hm & [_ Hin]%list_elem_of_filter)%list_elem_of_fmap.
      apply (fresh_not_in (_keyIndex s)). rewrite Hm.
      by apply list_elem_of_fmap_2.
    + apply filter_handles_NoDup, (wf_handles _ Hwf).
  - apply place_sorted, filter_sorted, (wf_sorted _ Hwf).
  - intros k' it. rewrite lookup_insert. case_decide as E.
    + intros [= <-]. subst k'. exists t. apply elem_of_place. by left.
    + intros [t' Ht']%(wf_keys _ Hwf). exists t'.
      apply elem_of_place. right. apply list_elem_of_filter. split; [|done].
      simpl. congruence.
  - intros n [->|[Hne Hn]%list_elem_of_filter]%elem_of_place; simpl.
    + by rewrite lookup_insert_eq.
    + rewrite lookup_insert_ne by done. by apply (wf_nodes _ Hwf).
Qed.

Lemma wf_remove s k :
  wf s →
  wf {| _keys := delete k (_keys s); _keyIndex := others k (_keyIndex s) |}.
Proof.
  intros Hwf. split; simpl.
  - apply filter_handles_NoDup, (wf_handles _ Hwf).
  - apply filter_sorted, (wf_sorted _ Hwf).
  - intros k' it. rewrite lookup_delete. case_decide as E; [done|].
    intros [t' Ht']%(wf_keys _ Hwf). exists t'.
    apply list_elem_of_filter. split; [|done]. simpl. congruence.
  - intros n [Hne Hn]%list_elem_of_filter.
    rewrite lookup_delete_ne by done. by apply (wf_nodes _ Hwf).
Qed.

(** A tracked key has one node, the one its iterator designates. *)
Lemma wf_entries s k it :
  wf s → _keys s !! k = Some it →
  ∃ t, entries k (_keyIndex s) = [mkNode it t k].
Proof.
  intros Hwf Hk. destruct (wf_keys _ Hwf _ _ Hk) as [t Ht]. exists t.
  assert (∀ m, m ∈ entries k (_keyIndex s) → m = mkNode it t k) as Hall.
  { intros m [E Hm]%list_elem_of_filter.
    eapply handle_inj; [apply (wf_handles _ Hwf)|done..|].
    apply (wf_nodes _ Hwf) in Hm. rewrite E in Hm. simpl. congruence. }
  assert (mkNode it t k ∈ entries k (_keyIndex s)) as Hin
    by (by apply list_elem_of_filter).
  assert (NoDup (entries k (_keyIndex s))) as Hnd.
  { apply NoDup_filter. eapply NoDup_fmap_1, (wf_handles _ Hwf). }
  destruct (entries k (_keyIndex s)) as [|a [|b l']].
  - by apply elem_of_nil in Hin.
  - f_equal. apply Hall. left.
  - apply NoDup_cons in Hnd as [Ha _]. destruct Ha.
    rewrite (Hall a), (Hall b); [left|right; left|left].
Qed.

(** An untracked key has none. *)
Lemma wf_no_entries s k :
  wf s → _keys s !! k = None → entries k (_keyIndex s) = [].
Proof.
  intros Hwf Hk. apply filter_none. intros n Hn E.
  apply (wf_nodes _ Hwf) in Hn. rewrite E in Hn. congruence.
Qed.

(** The two pure callbacks return the state they were given. *)
Lemma onIsValid_state now va s r :
  onIsValid now va s = Some r → r.2 = s.
Proof.
  unfold onIsValid. unfold_monad.
  destruct (_keys s !! va_key va) as [it|] eqn:Hk; unfold_monad.
  - rewrite Hk. unfold_monad.
    destruct (mm_deref it (_keyIndex s)) as [n|]; [|done]. unfold_monad.
    destruct (first n <=? now); by intros [= <-].
  - by intros [= <-].
Qed.

Lemma exec_wf s o s' : wf s → exec o s = Some (tt, s') → wf s'.
Proof.
  intros Hwf. destruct o as [args|k|k| |now va|now elems]; simpl.
  - rewrite onAdd_spec by done. intros [= <-]. by apply wf_add.
  - rewrite onRemove_spec by done. intros [= <-]. by apply wf_remove.
  - by intros [= <-].
  - intros [= <-]. apply wf_init.
  - unfold bind. destruct (onIsValid now va s) as [[r s'']|] eqn:E; [|done].
    apply onIsValid_state in E. simpl in E. subst s''. by intros [= <-].
  - by intros [= <-].
Qed.

Lemma reachable_wf s : reachable (TValue := TValue) s → wf s.
Proof. induction 1; [apply wf_init|by eapply exec_wf]. Qed.

Lemma run_reachable ops s s' :
  reachable s → run ops s = Some s' → reachable s'.
Proof.
  revert s. induction ops as [|o ops IH]; intros s Hs; simpl.
  - by intros [= <-].
  - destruct (exec o s) as [[[] s1]|] eqn:E; [|done].
    apply IH. by eapply reachable_step.
Qed.

(** No call is undefined in a well-formed state. *)
Lemma exec_total s o : wf s → is_Some (exec o s).
Proof.
  intros Hwf. destruct o as [args|k|k| |now va|now elems]; simpl.
  - by rewrite onAdd_spec.
  - by rewrite onRemove_spec.
  - done.
  - done.
  - unfold onIsValid. unfold_monad.
    destruct (_keys s !! va_key va) as [it|] eqn:Hk; unfold_monad; [|done].
    rewrite Hk. unfold_monad.
    destruct (wf_keys _ Hwf _ _ Hk) as [t Ht].
    apply (mm_deref_Some _ _ (wf_handles _ Hwf)) in Ht. simpl in Ht.
    rewrite Ht. unfold_monad. by destruct (_ <=? _).
  - done.
Qed.

(** After an add, the key's node is the new one and it is the only one. *)
Lemma entries_add k it t l :
  StronglySorted time_le l →
  entries k (place (mkNode it t k) (others k l)) = [mkNode it t k].
Proof.
  intros Hl. unfold entries.
  rewrite filter_place_keep; [|by apply filter_sorted|done].
  unfold others. rewrite filter_none; [done|].
  by intros n [Hne _]%list_elem_of_filter.
Qed.

(** An add or a removal of [k] leaves the nodes of any other key alone. *)
Lemma entries_others k k' l :
  k' ≠ k → entries k' (others k l) = entries k' l.
Proof.
  intros Hne. unfold entries, others. rewrite list_filter_filter.
  apply list_filter_iff. intros n. split; [tauto|]. intros <-. done.
Qed.

Lemma keys_distinct s :
  wf s → NoDup (second <$> _keyIndex s).
Proof.
  intros Hwf. apply NoDup_fmap_2_strong.
  - intros n m Hn Hm E.
    eapply handle_inj; [apply (wf_handles _ Hwf)|done..|].
    apply (wf_nodes _ Hwf) in Hn, Hm. rewrite E in Hn. congruence.
  - eapply NoDup_fmap_1, (wf_handles _ Hwf).
Qed.

Lemma keys_dom s :
  wf s → dom (_keys s) = list_to_set (second <$> _keyIndex s).
Proof.
  intros Hwf. apply set_eq. intros k.
  rewrite elem_of_dom, elem_of_list_to_set, list_elem_of_fmap. split.
  - intros [it Hk]. destruct (wf_keys _ Hwf _ _ Hk) as [t Ht].
    by exists (mkNode it t k).
  - intros (n & -> & Hn). apply (wf_nodes _ Hwf) in Hn. by eexists.
Qed.

(** ** Main results *)

(** C1. Re-adding a key, any number of times and with any values, from any
    reachable state: every add is accepted, and afterwards the time index
    holds exactly one node for the key, the one the key index designates,
    stamped with the expiration of the last value added. *)
Theorem readd_unique_latest s k vs v :
  reachable s →
  ∃ s' it,
    run (adds k (vs ++ [v])) s = Some s' ∧
    _keys s' !! k = Some it ∧
    entries k (_keyIndex s') = [mkNode it (getExpiration v) k].
Proof.
  intros Hs%reachable_wf. revert s Hs.
  induction vs as [|w vs IH]; intros s Hwf; simpl.
  - rewrite onAdd_spec by done. simpl. eexists _, _. split; [done|]. simpl.
    split; [apply lookup_insert_eq|].
    apply entries_add, (wf_sorted _ Hwf).
  - rewrite onAdd_spec by done. simpl. apply IH. by apply wf_add.
Qed.

(** C2. In every reachable state the two indexes agree: a tracked key has
    exactly one node in the time index, the one its iterator designates, and
    that node carries the key; every node is designated by the key it carries
    and by no other; the two containers have the same size. Moreover no call
    is undefined there, so every sequence of calls does lead to a state. *)
Theorem reachable_indexes_agree s :
  reachable s →
  (∀ k it, _keys s !! k = Some it →
     ∃ t, entries k (_keyIndex s) = [mkNode it t k] ∧
          filter (λ n, handle n = it) (_keyIndex s) = [mkNode it t k]) ∧
  (∀ n k, n ∈ _keyIndex s → _keys s !! k = Some (handle n) ↔ k = second n) ∧
  size (_keys s) = length (_keyIndex s) ∧
  (∀ o, ∃ s', exec o s = Some (tt, s') ∧ reachable s').
Proof.
  intros Hs. pose proof (reachable_wf _ Hs) as Hwf. repeat split.
  - intros k it Hk. destruct (wf_entries _ _ _ Hwf Hk) as [t Ht].
    exists t. split; [done|]. rewrite <- Ht. apply filter_ext_in.
    intros n Hn. split.
    + intros E. destruct (wf_keys _ Hwf _ _ Hk) as [t' Ht'].
      assert (n = mkNode it t' k) as -> by
        (eapply handle_inj; [apply (wf_handles _ Hwf)|done..]).
      done.
    + intros E. apply (wf_nodes _ Hwf) in Hn. rewrite E in Hn. congruence.
  - intros Hk. destruct (wf_keys _ Hwf _ _ Hk) as [t Ht].
    assert (n = mkNode (handle n) t k) as -> by
      (eapply handle_inj; [apply (wf_handles _ Hwf)|done..]).
    done.
  - intros ->. by apply (wf_nodes _ Hwf).
  - rewrite <- size_dom, keys_dom by done.
    rewrite size_list_to_set by by apply keys_distinct.
    by rewrite length_fmap.
  - intros o. destruct (exec_total s o Hwf) as [[[] s'] E].
    exists s'. split; [done|]. by eapply reachable_step.
Qed.

(** [onIsValid] on a tracked key of a well-formed state. *)
Lemma onIsValid_tracked s now va it :
  wf s → _keys s !! va_key va = Some it →
  ∃ t, entries (va_key va) (_keyIndex s) = [mkNode it t (va_key va)] ∧
       onIsValid now va s =
         Some (if t <=? now then invalidate va else va, s).
Proof.
  intros Hwf Hk. destruct (wf_entries _ _ _ Hwf Hk) as [t Ht].
  exists t. split; [done|].
  assert (mkNode it t (va_key va) ∈ entries (va_key va) (_keyIndex s)) as Hin
    by (rewrite Ht; left).
  apply list_elem_of_filter in Hin as [_ Hin].
  apply (mm_deref_Some _ _ (wf_handles _ Hwf)) in Hin. simpl in Hin.
  unfold onIsValid. unfold_monad. rewrite Hk. unfold_monad.
  rewrite Hk. unfold_monad. rewrite Hin. unfold_monad. cbn [first].
  by destruct (t <=? now).
Qed.

Lemma onIsValid_untracked s now va :
  _keys s !! va_key va = None → onIsValid now va s = Some (va, s).
Proof. intros Hk. unfold onIsValid. unfold_monad. by rewrite Hk. Qed.

(** C3. For a key tracked in a reachable state, [onIsValid] at time [now]
    calls [invalidate()] exactly when the timestamp [t] recorded for the key
    is at most [now], equality included; otherwise it leaves the outcome slot
    as it was. The state it returns is the state it was given. *)
Theorem onIsValid_inclusive s now va it :
  reachable s →
  _keys s !! va_key va = Some it →
  ∃ t va',
    entries (va_key va) (_keyIndex s) = [mkNode it t (va_key va)] ∧
    onIsValid now va s = Some (va', s) ∧
    va' = (if t <=? now then invalidate va else va) ∧
    (isValid va' = false ↔ isValid va = false ∨ t ≤ now).
Proof.
  intros Hwf%reachable_wf Hk.
  destruct (onIsValid_tracked s now va it Hwf Hk) as (t & Ht & E).
  exists t. eexists. repeat split; [done|done|..].
  - destruct (Z.leb_spec t now); simpl; [auto|]. by left.
  - destruct (Z.leb_spec t now); simpl; [done|].
    intros [?|?]; [done|lia].
Qed.

(** C4. In a reachable state [onReplace] at time [now] adds to the caller's
    collection exactly the tracked keys whose timestamp is strictly before
    [now], whatever the order in which they were added. Those nodes are the
    front of the time index: every node behind them has a timestamp of [now]
    or later. The state it returns is the state it was given. *)
Theorem onReplace_strict_prefix s now elems :
  reachable s →
  ∃ r rest,
    onReplace now elems s = Some (r, s) ∧
    _keyIndex s = expired now (_keyIndex s) ++ rest ∧
    Forall (λ n, now ≤ first n) rest ∧
    r = elems ∪ list_to_set (second <$> expired now (_keyIndex s)) ∧
    (∀ k, k ∈ r ↔
       k ∈ elems ∨
       ∃ it t, _keys s !! k = Some it ∧ mkNode it t k ∈ _keyIndex s ∧ t < now).
Proof.
  intros Hwf%reachable_wf.
  exists (sweep now (_keyIndex s) elems),
    (filter (λ n, now ≤ first n) (_keyIndex s)).
  pose proof (wf_sorted _ Hwf) as Hl.
  split; [done|]. split; [|split; [|split]].
  - clear Hwf. induction Hl as [|n l Hl IH Hn]; [done|].
    unfold expired in *. rewrite !filter_cons.
    destruct (decide (first n < now)), (decide (now ≤ first n)); try lia.
    + simpl. by f_equal.
    + rewrite filter_none, filter_all; [done|..].
      * rewrite Forall_forall in Hn. intros m Hm%Hn. unfold time_le in Hm. lia.
      * rewrite Forall_forall in Hn. intros m Hm%Hn. unfold time_le in Hm. lia.
  - apply Forall_forall. by intros n [? _]%list_elem_of_filter.
  - by apply sweep_sorted.
  - intros k. rewrite sweep_sorted by done.
    rewrite elem_of_union, elem_of_list_to_set, list_elem_of_fmap.
    apply or_iff_compat_l. split.
    + intros (n & -> & [Hlt Hn]%list_elem_of_filter).
      exists (handle n), (first n). split; [by apply (wf_nodes _ Hwf)|].
      by destruct n.
    + intros (it & t & _ & Hn & Hlt). exists (mkNode it t k).
      split; [done|]. by apply list_elem_of_filter.
Qed.

(** C5. [onAdd] accepts every value, whatever its expiration: in a
    reachable state the add is defined and leaves the key tracked with one
    node stamped with the value's expiration. If that expiration lay before
    the time [t_add] of the add, then a check or a sweep made next, at any
    time [now] from [t_add] on, reports the key: [onIsValid] invalidates the
    outcome slot and [onReplace] puts the key among the candidates. *)
Theorem onAdd_accepts_expired s k v :
  reachable s →
  ∃ s' it,
    onAdd {| key := k; value := v |} s = Some (tt, s') ∧
    _keys s' !! k = Some it ∧
    entries k (_keyIndex s') = [mkNode it (getExpiration v) k] ∧
    ∀ t_add now, getExpiration v < t_add → t_add ≤ now →
      (∀ b, onIsValid now {| va_key := k; isValid := b |} s' =
              Some ({| va_key := k; isValid := false |}, s')) ∧
      (∀ elems, ∃ r, onReplace now elems s' = Some (r, s') ∧ k ∈ r).
Proof.
  intros Hwf%reachable_wf.
  pose proof (wf_add s k (getExpiration v) Hwf) as Hwf'.
  rewrite onAdd_spec by done. cbn [key value].
  set (s' := mkState _ _) in *.
  assert (_keys s' !! k = Some (fresh (_keyIndex s))) as Hk
    by apply lookup_insert_eq.
  assert (entries k (_keyIndex s') =
          [mkNode (fresh (_keyIndex s)) (getExpiration v) k]) as He
    by apply entries_add, (wf_sorted _ Hwf).
  exists s', (fresh (_keyIndex s)). repeat split; [done..| |].
  - intros b.
    destruct (onIsValid_tracked s' now (mkValidArgs k b) _ Hwf' Hk)
      as (t & Ht & E).
    cbn [va_key] in Ht. rewrite He in Ht. injection Ht as <-.
    rewrite E. by replace (_ <=? now) with true by (symmetry; apply Z.leb_le; lia).
  - intros elems. eexists. split; [done|].
    rewrite sweep_sorted by apply (wf_sorted _ Hwf').
    apply elem_of_union_r, elem_of_list_to_set, list_elem_of_fmap.
    exists (mkNode (fresh (_keyIndex s)) (getExpiration v) k). split; [done|].
    apply list_elem_of_filter. split; [simpl; lia|].
    eapply (proj1 (list_elem_of_filter (λ n, second n = k) _ _)).
    fold (entries k (_keyIndex s')). rewrite He. left.
Qed.

(** C6. For a key that the key index does not hold, [onIsValid] leaves the
    outcome slot as the caller passed it, at every time and in every state. *)
Theorem onIsValid_untracked_valid s now va :
  _keys s !! va_key va = None →
  onIsValid now va s = Some (va, s).
Proof. apply onIsValid_untracked. Qed.

Lemma onRemove_untracked s k :
  _keys s !! k = None → onRemove k s = Some (tt, s).
Proof. intros Hk. unfold onRemove. unfold_monad. by rewrite Hk. Qed.

(** C7. [onRemove] of an untracked key returns the state unchanged; and in a
    reachable state a removal is defined, leaves the key untracked, and a
    second removal of the same key returns the state the first one left. *)
Theorem onRemove_idempotent s k :
  reachable s →
  (_keys s !! k = None → onRemove k s = Some (tt, s)) ∧
  ∃ s', onRemove k s = Some (tt, s') ∧
        _keys s' !! k = None ∧
        onRemove k s' = Some (tt, s').
Proof.
  intros Hwf%reachable_wf. split; [apply onRemove_untracked|].
  rewrite onRemove_spec by done. eexists. split; [done|].
  assert (delete k (_keys s) !! k = None) as Hk by apply lookup_delete_eq.
  split; [done|]. by apply onRemove_untracked.
Qed.

(** C8. [onClear] is defined in every state and leaves both containers
    empty; in the state it leaves, [onIsValid] keeps the outcome slot as
    passed for every key, and [onReplace] adds nothing to the collection. *)
Theorem onClear_total s :
  ∃ s', onClear s = Some (tt, s') ∧
        _keys s' = ∅ ∧ _keyIndex s' = [] ∧
        (∀ now va, onIsValid now va s' = Some (va, s')) ∧
        (∀ now elems, onReplace now elems s' = Some (elems, s')).
Proof.
  exists init. split; [done|]. do 2 (split; [done|]). split.
  - intros now va. by apply onIsValid_untracked.
  - done.
Qed.

(** C9. At the boundary the two queries differ. For a key tracked in a
    reachable state whose recorded timestamp equals the current time [t],
    [onIsValid] at [t] invalidates the outcome slot, while [onReplace] at [t]
    does not add the key: it is among the candidates only if the caller's
    collection held it already. *)
Theorem boundary_disagreement s k it t :
  reachable s →
  _keys s !! k = Some it →
  mm_deref it (_keyIndex s) = Some (mkNode it t k) →
  (∀ b, onIsValid t {| va_key := k; isValid := b |} s =
          Some ({| va_key := k; isValid := false |}, s)) ∧
  (∀ elems, ∃ r, onReplace t elems s = Some (r, s) ∧ (k ∈ r ↔ k ∈ elems)).
Proof.
  intros Hwf%reachable_wf Hk [Hin _]%mm_deref_elem.
  destruct (wf_entries _ _ _ Hwf Hk) as [t' He].
  assert (t' = t) as ->.
  { assert (mkNode it t k ∈ entries k (_keyIndex s)) as Hin'
      by (by apply list_elem_of_filter).
    rewrite He in Hin'. apply list_elem_of_singleton in Hin'. congruence. }
  split.
  - intros b.
    destruct (onIsValid_tracked s t (mkValidArgs k b) _ Hwf Hk) as (t' & Ht & E).
    cbn [va_key] in Ht. rewrite He in Ht. injection Ht as <-.
    rewrite E. by rewrite Z.leb_refl.
  - intros elems. eexists. split; [done|].
    rewrite sweep_sorted by apply (wf_sorted _ Hwf).
    rewrite elem_of_union, elem_of_list_to_set, list_elem_of_fmap.
    split; [|by left]. intros [?|(n & -> & [Hlt Hn]%list_elem_of_filter)]; [done|].
    assert (n ∈ entries (second n) (_keyIndex s)) as Hn'
      by (by apply list_elem_of_filter).
    rewrite He in Hn'. apply list_elem_of_singleton in Hn'.
    apply (f_equal first) in Hn'. simpl in Hn'. lia.
Qed.

(** C10. [onAdd] of key [k] in a reachable state touches no other key: for
    [k'] distinct from [k] the iterator stored for [k'] is the same, and so
    are the nodes the time index holds for [k'] and the node that iterator
    designates. No condition bears on timestamps, so this holds as well when
    [k'] shares its timestamp with the old or the new node of [k]. *)
Theorem onAdd_frame s k v k' :
  reachable s →
  k' ≠ k →
  ∃ s',
    onAdd {| key := k; value := v |} s = Some (tt, s') ∧
    _keys s' !! k' = _keys s !! k' ∧
    entries k' (_keyIndex s') = entries k' (_keyIndex s) ∧
    (∀ it, _keys s !! k' = Some it →
       ∃ n, mm_deref it (_keyIndex s) = Some n ∧
            mm_deref it (_keyIndex s') = Some n ∧ second n = k').
Proof.
  intros Hwf%reachable_wf Hne.
  pose proof (wf_add s k (getExpiration v) Hwf) as Hwf'.
  rewrite onAdd_spec by done. cbn [key value].
  set (s' := mkState _ _) in *.
  assert (entries k' (_keyIndex s') = entries k' (_keyIndex s)) as He.
  { unfold s', entries. cbn [_keyIndex].
    rewrite filter_place_drop by (simpl; congruence).
    by apply entries_others. }
  exists s'. repeat split; [by apply lookup_insert_ne|done|].
  intros it Hk. destruct (wf_entries _ _ _ Hwf Hk) as [t Ht].
  exists (mkNode it t k').
  assert (mkNode it t k' ∈ entries k' (_keyIndex s)) as Hin by (rewrite Ht; left).
  pose proof Hin as Hin'. rewrite <- He in Hin'.
  apply list_elem_of_filter in Hin as [_ Hin], Hin' as [_ Hin'].
  apply (mm_deref_Some _ _ (wf_handles _ Hwf)) in Hin.
  apply (mm_deref_Some _ _ (wf_handles _ Hwf')) in Hin'.
  done.
Qed.

End Strategy.

(** ** The strategy at work *)

(** Keys 1, 2, 3 expire at 10, 1 and 20. A sweep at 5 reports key 2 only, a
    sweep at 15 keys 2 and 1; once key 2 is re-added to expire at 30, a sweep
    at 15 reports key 1 only. *)
Example sweep_at_5 :
  Demo.candidates [Demo.add 1 10; Demo.add 2 1; Demo.add 3 20] 5 = Some {[ 2%nat ]}.
Proof. reflexivity. Qed.

Example sweep_at_15 :
  Demo.candidates [Demo.add 1 10; Demo.add 2 1; Demo.add 3 20] 15
  = Some {[ 1%nat; 2%nat ]}.
Proof. reflexivity. Qed.

Example sweep_after_readd :
  Demo.candidates [Demo.add 1 10; Demo.add 2 1; Demo.add 3 20; Demo.add 2 30] 15
  = Some {[ 1%nat ]}.
Proof. reflexivity. Qed.

(** The order of the adds does not show in the time index. *)
Example adds_in_any_order :
  run [Demo.add 3 20; Demo.add 1 10; Demo.add 2 1] init
  = Some {| _keys := {[ 1%nat := 2%nat; 2%nat := 3%nat; 3%nat := 1%nat ]};
            _keyIndex := [ mkNode 3%nat 1 2%nat; mkNode 2%nat 10 1%nat;
                           mkNode 1%nat 20 3%nat ] |}.
Proof. reflexivity. Qed.

(** Erasing through an iterator that designates nothing is undefined: a key
    index that points at a node the time index does not hold makes [onRemove]
    fail. No reachable state is like that. *)
Example dangling_iterator :
  onRemove 1%nat {| _keys := {[ 1%nat := 5%nat ]}; _keyIndex := [] |} = None.
Proof. reflexivity. Qed.

(** ** The main results at the concrete instance *)

Lemma three_reachable : reachable (TValue := Demo.Session) Demo.three.
Proof.
  apply (run_reachable [Demo.add 1 10; Demo.add 2 1; Demo.add 3 20] init);
    [apply reachable_init | reflexivity].
Qed.

Lemma ties_reachable : reachable (TValue := Demo.Session) Demo.ties.
Proof.
  apply (run_reachable [Demo.add 1 10; Demo.add 2 10] init);
    [apply reachable_init | reflexivity].
Qed.

Lemma readd_unique_latest_witness :
  reachable (TValue := Demo.Session) Demo.three ∧
  ∃ s' it,
    run (adds 2%nat [Demo.mkSession 0 5; Demo.mkSession 0 30; Demo.mkSession 0 7])
        Demo.three = Some s' ∧
    _keys s' !! 2%nat = Some it ∧
    entries 2%nat (_keyIndex s') = [mkNode it 7 2%nat].
Proof.
  split; [exact three_reachable|].
  exact (readd_unique_latest Demo.three 2%nat
           [Demo.mkSession 0 5; Demo.mkSession 0 30] (Demo.mkSession 0 7)
           three_reachable).
Defined.

Lemma reachable_indexes_agree_witness :
  reachable (TValue := Demo.Session) Demo.three ∧
  size (_keys Demo.three) = length (_keyIndex Demo.three) ∧
  ∃ s', exec (Demo.add 2 30) Demo.three = Some (tt, s') ∧ reachable s'.
Proof.
  split; [exact three_reachable|].
  destruct (reachable_indexes_agree (TValue := Demo.Session) Demo.three
              three_reachable) as (_ & _ & Hsize & Hstep).
  split; [exact Hsize | exact (Hstep (Demo.add 2 30))].
Defined.

Lemma onIsValid_inclusive_witness :
  reachable (TValue := Demo.Session) Demo.three ∧
  _keys Demo.three !! 1%nat = Some 1%nat ∧
  ∃ t va',
    entries 1%nat (_keyIndex Demo.three) = [mkNode 1%nat t 1%nat] ∧
    onIsValid 10 (mkValidArgs 1%nat true) Demo.three = Some (va', Demo.three) ∧
    va' = (if t <=? 10 then invalidate (mkValidArgs 1%nat true)
           else mkValidArgs 1%nat true) ∧
    (isValid va' = false ↔ true = false ∨ t ≤ 10).
Proof.
  split; [exact three_reachable|]. split; [reflexivity|].
  apply (onIsValid_inclusive (TValue := Demo.Session) Demo.three 10
           (mkValidArgs 1%nat true) 1%nat three_reachable).
  reflexivity.
Defined.

Lemma onReplace_strict_prefix_witness :
  reachable (TValue := Demo.Session) Demo.three ∧
  ∃ r rest,
    onReplace 15 ∅ Demo.three = Some (r, Demo.three) ∧
    _keyIndex Demo.three = expired 15 (_keyIndex Demo.three) ++ rest ∧
    Forall (λ n, 15 ≤ first n) rest ∧
    r = ∅ ∪ list_to_set (second <$> expired 15 (_keyIndex Demo.three)) ∧
    (∀ k, k ∈ r ↔
       k ∈ (∅ : gset nat) ∨
       ∃ it t, _keys Demo.three !! k = Some it ∧
               mkNode it t k ∈ _keyIndex Demo.three ∧ t < 15).
Proof.
  split; [exact three_reachable|].
  exact (onReplace_strict_prefix (TValue := Demo.Session) Demo.three 15 ∅
           three_reachable).
Defined.

Lemma onAdd_accepts_expired_witness :
  reachable (TValue := Demo.Session) Demo.three ∧
  getExpiration (Demo.mkSession 0 3) < 5 ∧ 5 ≤ 6 ∧
  ∃ s',
    onAdd (mkKeyValueArgs 4%nat (Demo.mkSession 0 3)) Demo.three = Some (tt, s') ∧
    onIsValid 6 (mkValidArgs 4%nat true) s' = Some (mkValidArgs 4%nat false, s') ∧
    ∃ r, onReplace 6 ∅ s' = Some (r, s') ∧ 4%nat ∈ r.
Proof.
  assert (getExpiration (Demo.mkSession 0 3) < 5) as Hpast by reflexivity.
  assert (5 ≤ 6) as Hlater by lia.
  split; [exact three_reachable|]. split; [exact Hpast|]. split; [exact Hlater|].
  destruct (onAdd_accepts_expired Demo.three 4%nat (Demo.mkSession 0 3)
              three_reachable) as (s' & it & Hadd & _ & _ & Hnext).
  destruct (Hnext 5 6 Hpast Hlater) as [Hvalid Hsweep].
  exists s'. split; [exact Hadd|]. split; [exact (Hvalid true)|exact (Hsweep ∅)].
Defined.

Lemma onIsValid_untracked_valid_witness :
  _keys Demo.three !! 7%nat = None ∧
  onIsValid 100 (mkValidArgs 7%nat true) Demo.three =
    Some (mkValidArgs 7%nat true, Demo.three).
Proof.
  split; [reflexivity|].
  apply (onIsValid_untracked_valid Demo.three 100 (mkValidArgs 7%nat true)).
  reflexivity.
Defined.

Lemma onRemove_idempotent_witness :
  reachable (TValue := Demo.Session) Demo.three ∧
  _keys Demo.three !! 7%nat = None ∧
  onRemove 7%nat Demo.three = Some (tt, Demo.three) ∧
  ∃ s', onRemove 2%nat Demo.three = Some (tt, s') ∧
        _keys s' !! 2%nat = None ∧
        onRemove 2%nat s' = Some (tt, s').
Proof.
  assert (_keys Demo.three !! 7%nat = None) as Hk by reflexivity.
  split; [exact three_reachable|]. split; [exact Hk|]. split.
  - exact (proj1 (onRemove_idempotent (TValue := Demo.Session) Demo.three
                    7%nat three_reachable) Hk).
  - exact (proj2 (onRemove_idempotent (TValue := Demo.Session) Demo.three
                    2%nat three_reachable)).
Defined.

Lemma boundary_disagreement_witness :
  reachable (TValue := Demo.Session) Demo.three ∧
  _keys Demo.three !! 1%nat = Some 1%nat ∧
  mm_deref 1%nat (_keyIndex Demo.three) = Some (mkNode 1%nat 10 1%nat) ∧
  onIsValid 10 (mkValidArgs 1%nat true) Demo.three =
    Some (mkValidArgs 1%nat false, Demo.three) ∧
  ∃ r, onReplace 10 ∅ Demo.three = Some (r, Demo.three) ∧
       (1%nat ∈ r ↔ 1%nat ∈ (∅ : gset nat)).
Proof.
  assert (_keys Demo.three !! 1%nat = Some 1%nat) as Hk by reflexivity.
  assert (mm_deref 1%nat (_keyIndex Demo.three) = Some (mkNode 1%nat 10 1%nat))
    as Hn by reflexivity.
  split; [exact three_reachable|]. split; [exact Hk|]. split; [exact Hn|].
  destruct (boundary_disagreement (TValue := Demo.Session) Demo.three 1%nat
              1%nat 10 three_reachable Hk Hn) as [Hvalid Hsweep].
  split; [exact (Hvalid true)|exact (Hsweep ∅)].
Defined.

Lemma onAdd_frame_witness :
  reachable (TValue := Demo.Session) Demo.ties ∧
  2%nat ≠ 1%nat ∧
  ∃ s',
    onAdd (mkKeyValueArgs 1%nat (Demo.mkSession 0 10)) Demo.ties = Some (tt, s') ∧
    _keys s' !! 2%nat = _keys Demo.ties !! 2%nat ∧
    entries 2%nat (_keyIndex s') = entries 2%nat (_keyIndex Demo.ties) ∧
    (∀ it, _keys Demo.ties !! 2%nat = Some it →
       ∃ n, mm_deref it (_keyIndex Demo.ties) = Some n ∧
            mm_deref it (_keyIndex s') = Some n ∧ second n = 2%nat).
Proof.
  assert (2%nat ≠ 1%nat) as Hne by lia.
  split; [exact ties_reachable|]. split; [exact Hne|].
  exact (onAdd_frame Demo.ties 1%nat (Demo.mkSession 0 10) 2%nat
           ties_reachable Hne).
Defined.

(** * The strategy as a map from keys to timestamps *)

Section Recorded.

Context {TKey : Type} `{Countable TKey}.
Context {TValue : Type} `{Expiring TValue}.
Implicit Types (s : State TKey) (k : TKey) (l : TimeIndex TKey).

Lemma recorded_head s k :
  wf s → recorded s !! k = head (first <$> entries k (_keyIndex s)).
Proof.
  intros Hwf. unfold recorded. rewrite lookup_omap.
  destruct (_keys s !! k) as [it|] eqn:Hk; simpl.
  - destruct (wf_entries _ _ _ Hwf Hk) as [t Ht].
    assert (mkNode it t k ∈ entries k (_keyIndex s)) as Hin
      by (rewrite Ht; left).
    apply list_elem_of_filter in Hin as [_ Hin].
    apply (mm_deref_Some _ _ (wf_handles _ Hwf)) in Hin. simpl in Hin.
    by rewrite Hin, Ht.
  - by rewrite (wf_no_entries _ _ Hwf Hk).
Qed.

Lemma recorded_node s n :
  wf s → n ∈ _keyIndex s → recorded s !! second n = Some (first n).
Proof.
  intros Hwf Hn. unfold recorded. rewrite lookup_omap.
  rewrite (wf_nodes _ Hwf _ Hn). simpl.
  by rewrite (mm_deref_Some _ _ (wf_handles _ Hwf) Hn).
Qed.

Lemma recorded_Some s k t :
  wf s → recorded s !! k = Some t →
  ∃ it, _keys s !! k = Some it ∧ mkNode it t k ∈ _keyIndex s.
Proof.
  intros Hwf. unfold recorded. rewrite lookup_omap.
  destruct (_keys s !! k) as [it|] eqn:Hk; simpl; [|done].
  destruct (mm_deref it (_keyIndex s)) as [n|] eqn:Hd; simpl; [|done].
  intros [= <-]. apply mm_deref_elem in Hd as [Hn Hh].
  destruct (wf_keys _ Hwf _ _ Hk) as [t' Ht'].
  assert (n = mkNode it t' k) as ->
    by (eapply handle_inj; [apply (wf_handles _ Hwf)|done..]).
  by exists it.
Qed.

Lemma entries_others_same k l : entries k (others k l) = [].
Proof.
  apply filter_none. by intros n [Hne _]%list_elem_of_filter.
Qed.

Lemma others_idemp k l : others k (others k l) = others k l.
Proof.
  apply filter_all. by intros n [Hne _]%list_elem_of_filter.
Qed.

(** The recorded map after an add and after a removal. *)
Lemma recorded_add s k t :
  wf s →
  recorded {| _keys := <[k := fresh (_keyIndex s)]> (_keys s);
              _keyIndex := place (mkNode (fresh (_keyIndex s)) t k)
                                 (others k (_keyIndex s)) |}
  = <[k := t]> (recorded s).
Proof.
  intros Hwf. pose proof (wf_add s k t Hwf) as Hwf'.
  apply map_eq. intros k'. rewrite (recorded_head _ _ Hwf'). cbn [_keyIndex].
  destruct (decide (k' = k)) as [->|Hne].
  - by rewrite lookup_insert_eq, entries_add by apply (wf_sorted _ Hwf).
  - rewrite lookup_insert_ne by done. rewrite (recorded_head _ _ Hwf).
    unfold entries at 1. rewrite filter_place_drop by (simpl; congruence).
    fold (entries k' (others k (_keyIndex s))). by rewrite entries_others.
Qed.

Lemma recorded_remove s k :
  wf s →
  recorded {| _keys := delete k (_keys s); _keyIndex := others k (_keyIndex s) |}
  = delete k (recorded s).
Proof.
  intros Hwf. pose proof (wf_remove s k Hwf) as Hwf'.
  apply map_eq. intros k'. rewrite (recorded_head _ _ Hwf'). cbn [_keyIndex].
  destruct (decide (k' = k)) as [->|Hne].
  - by rewrite lookup_delete_eq, entries_others_same.
  - rewrite lookup_delete_ne by done. rewrite (recorded_head _ _ Hwf).
    by rewrite entries_others.
Qed.

(** What the two queries answer, read off the recorded map. *)
Lemma onIsValid_recorded s now (va : ValidArgs TKey) :
  wf s →
  onIsValid now va s =
    Some (match recorded s !! va_key va with
          | Some t => if t <=? now then invalidate va else va
          | None => va
          end, s).
Proof.
  intros Hwf. rewrite (recorded_head _ _ Hwf).
  destruct (_keys s !! va_key va) as [it|] eqn:Hk.
  - destruct (onIsValid_tracked s now va it Hwf Hk) as (t & Ht & E).
    by rewrite E, Ht.
  - rewrite (wf_no_entries _ _ Hwf Hk). by apply onIsValid_untracked.
Qed.

Lemma onReplace_recorded s now (elems : gset TKey) :
  wf s →
  onReplace now elems s =
    Some (elems ∪ dom (filter (λ kt, kt.2 < now) (recorded s)), s).
Proof.
  intros Hwf. unfold onReplace. rewrite sweep_sorted by apply (wf_sorted _ Hwf).
  do 3 f_equal. apply set_eq. intros k.
  rewrite elem_of_list_to_set, list_elem_of_fmap, elem_of_dom. split.
  - intros (n & -> & [Hlt Hn]%list_elem_of_filter). exists (first n).
    apply map_lookup_filter_Some. split; [by apply recorded_node|done].
  - intros [t [Ht Hlt]%map_lookup_filter_Some]. simpl in Hlt.
    destruct (recorded_Some _ _ _ Hwf Ht) as (it & _ & Hn).
    exists (mkNode it t k). split; [done|]. by apply list_elem_of_filter.
Qed.

Lemma sorted_lookup l i j n m :
  StronglySorted time_le l → (i < j)%nat →
  l !! i = Some n → l !! j = Some m → first n ≤ first m.
Proof.
  intros Hl. revert i j. induction Hl as [|x l Hl IH Hx]; intros i j Hij Hi Hj.
  - by rewrite lookup_nil in Hi.
  - destruct j as [|j]; [lia|]. rewrite lookup_cons in Hj.
    destruct i as [|i].
    + injection Hi as ->. rewrite Forall_forall in Hx.
      apply Hx. by eapply list_elem_of_lookup_2.
    + rewrite lookup_cons in Hi. apply (IH i j); [lia|done..].
Qed.

Lemma contents_place it it' t k l :
  contents (place (mkNode it t k) l) = contents (place (mkNode it' t k) l).
Proof.
  unfold contents. induction l as [|m l IH]; cbn [place first]; [done|].
  destruct (t <? first m); [done|]. by rewrite !fmap_cons, IH.
Qed.

Lemma length_place (n : Node TKey) l : length (place n l) = S (length l).
Proof. apply (Permutation_length (place_perm n l)). Qed.

Lemma length_entries_others k l :
  (length (entries k l) + length (others k l) = length l)%nat.
Proof.
  unfold entries, others. induction l as [|m l IH]; [done|].
  rewrite !filter_cons. destruct (decide (second m = k)).
  - rewrite decide_False by tauto. simpl. lia.
  - rewrite decide_True by done. simpl. lia.
Qed.

Lemma run_add s (a : KeyValueArgs TKey TValue) ops :
  wf s →
  run (Add a :: ops) s =
  run ops {| _keys := <[key a := fresh (_keyIndex s)]> (_keys s);
             _keyIndex := place (mkNode (fresh (_keyIndex s))
                                        (getExpiration (value a)) (key a))
                                (others (key a) (_keyIndex s)) |}.
Proof. intros Hwf. cbn [run exec]. by rewrite onAdd_spec. Qed.

Lemma run_remove s k (ops : list (Op TKey TValue)) :
  wf s →
  run (Remove k :: ops) s =
  run ops {| _keys := delete k (_keys s); _keyIndex := others k (_keyIndex s) |}.
Proof. intros Hwf. cbn [run exec]. by rewrite onRemove_spec. Qed.

(** ** Further results *)

(** X1. In every reachable state the time index is in ascending order of
    timestamp: a node never comes before a node that expires earlier. *)
Theorem reachable_time_ordered s i j n m :
  reachable (TValue := TValue) s →
  (i < j)%nat →
  _keyIndex s !! i = Some n →
  _keyIndex s !! j = Some m →
  first n ≤ first m.
Proof.
  intros Hwf%reachable_wf. apply sorted_lookup, (wf_sorted _ Hwf).
Qed.

(** X2. In a reachable state [onAdd] of [k] with value [v] is defined and
    changes the recorded timestamps in one place only: [k] now has the
    expiration of [v], every other key has what it had. *)
Theorem onAdd_records s k (v : TValue) :
  reachable (TValue := TValue) s →
  ∃ s', onAdd {| key := k; value := v |} s = Some (tt, s') ∧
        recorded s' = <[k := getExpiration v]> (recorded s).
Proof.
  intros Hwf%reachable_wf. rewrite onAdd_spec by done. cbn [key value].
  eexists. split; [done|]. by apply recorded_add.
Qed.

(** X3. In a reachable state [onRemove] of [k] is defined and changes the
    recorded timestamps in one place only: [k] has none any more, every
    other key has what it had. *)
Theorem onRemove_records s k :
  reachable (TValue := TValue) s →
  ∃ s', onRemove k s = Some (tt, s') ∧
        recorded s' = delete k (recorded s).
Proof.
  intros Hwf%reachable_wf. rewrite onRemove_spec by done.
  eexists. split; [done|]. by apply recorded_remove.
Qed.

(** X4. In a reachable state the recorded timestamps decide both queries:
    [onIsValid] invalidates exactly when the key has a recorded timestamp at
    most [now], and [onReplace] adds exactly the keys whose recorded timestamp
    is strictly before [now]. Neither changes the state. *)
Theorem queries_read_record s now (va : ValidArgs TKey) (elems : gset TKey) :
  reachable (TValue := TValue) s →
  onIsValid now va s =
    Some (match recorded s !! va_key va with
          | Some t => if t <=? now then invalidate va else va
          | None => va
          end, s) ∧
  onReplace now elems s =
    Some (elems ∪ dom (filter (λ kt, kt.2 < now) (recorded s)), s).
Proof.
  intros Hwf%reachable_wf. split.
  - by apply onIsValid_recorded.
  - by apply onReplace_recorded.
Qed.

(** X5. Adds of two distinct keys commute as far as any caller can tell: from
    a reachable state both orders are defined, record the same timestamps,
    and make every later [onIsValid] and [onReplace] answer alike. *)
Theorem adds_commute s k (v : TValue) k' (v' : TValue) :
  reachable (TValue := TValue) s →
  k ≠ k' →
  ∃ s1 s2,
    run [Add {| key := k; value := v |}; Add {| key := k'; value := v' |}] s
      = Some s1 ∧
    run [Add {| key := k'; value := v' |}; Add {| key := k; value := v |}] s
      = Some s2 ∧
    recorded s1 = recorded s2 ∧
    (∀ now va, fst <$> onIsValid now va s1 = fst <$> onIsValid now va s2) ∧
    (∀ now elems, fst <$> onReplace now elems s1 = fst <$> onReplace now elems s2).
Proof.
  intros Hwf%reachable_wf Hne.
  pose proof (wf_add s k (getExpiration v) Hwf) as Hwf1.
  pose proof (wf_add s k' (getExpiration v') Hwf) as Hwf2.
  pose proof (wf_add _ k' (getExpiration v') Hwf1) as Hwf12.
  pose proof (wf_add _ k (getExpiration v) Hwf2) as Hwf21.
  rewrite !run_add by done. cbn [key value run].
  eexists _, _. do 2 (split; [done|]).
  match goal with
  | |- recorded ?a = recorded ?b ∧ _ =>
      assert (recorded a = recorded b) as Hrec
  end.
  { rewrite !recorded_add by done. by apply insert_insert_ne. }
  split; [done|]. split.
  - intros now va. by rewrite !onIsValid_recorded, Hrec by done.
  - intros now elems. by rewrite !onReplace_recorded, Hrec by done.
Qed.

(** X6. Overwriting a key is the same as removing it and adding it again:
    from a reachable state both are defined and leave the same pairs in the
    time index, in the same order, the same tracked keys and the same
    recorded timestamps. *)
Theorem overwrite_is_remove_then_add s k (v : TValue) :
  reachable (TValue := TValue) s →
  ∃ s1 s2,
    onAdd {| key := k; value := v |} s = Some (tt, s1) ∧
    run [Remove k; Add {| key := k; value := v |}] s = Some s2 ∧
    contents (_keyIndex s1) = contents (_keyIndex s2) ∧
    dom (_keys s1) = dom (_keys s2) ∧
    recorded s1 = recorded s2.
Proof.
  intros Hwf%reachable_wf.
  pose proof (wf_remove s k Hwf) as Hwfr.
  rewrite onAdd_spec, run_remove by done. cbn [key value].
  set (sr := mkState (delete _ _) _) in *.
  rewrite run_add by done. cbn [key value run].
  eexists _, _. do 2 (split; [done|]). cbn [_keyIndex _keys].
  split; [|split].
  - unfold sr. cbn [_keyIndex]. rewrite others_idemp. apply contents_place.
  - unfold sr. cbn [_keys]. rewrite !dom_insert_L, dom_delete_L.
    apply set_eq. intros k'. rewrite !elem_of_union, elem_of_difference,
      elem_of_singleton. destruct (decide (k' = k)); tauto.
  - rewrite !recorded_add by done. unfold sr. rewrite recorded_remove by done.
    by rewrite insert_delete_eq.
Qed.

(** X7. Adding a key that a reachable state does not track and removing it
    straight away gives back that very state, both containers as they were. *)
Theorem add_remove_roundtrip s k (v : TValue) :
  reachable (TValue := TValue) s →
  _keys s !! k = None →
  run [Add {| key := k; value := v |}; Remove k] s = Some s.
Proof.
  intros Hwf%reachable_wf Hk.
  pose proof (wf_add s k (getExpiration v) Hwf) as Hwf1.
  rewrite run_add by done. cbn [key value].
  rewrite run_remove by done. cbn [run _keys _keyIndex].
  rewrite delete_insert_id by done.
  unfold others at 1. rewrite filter_place_drop by (simpl; tauto).
  fold (others k (others k (_keyIndex s))).
  rewrite others_idemp, (wf_untracked _ _ Hwf Hk). by destruct s.
Qed.

(** X8. [onRemove] of [k] in a reachable state leaves no node for [k] in the
    time index and touches no other key: for [k'] distinct from [k] the stored
    iterator and the nodes of [k'] are the same as before. *)
Theorem onRemove_frame s k :
  reachable (TValue := TValue) s →
  ∃ s',
    onRemove k s = Some (tt, s') ∧
    entries k (_keyIndex s') = [] ∧
    ∀ k', k' ≠ k →
      _keys s' !! k' = _keys s !! k' ∧
      entries k' (_keyIndex s') = entries k' (_keyIndex s).
Proof.
  intros Hwf%reachable_wf. rewrite onRemove_spec by done.
  eexists. split; [done|]. cbn [_keys _keyIndex]. split.
  - apply entries_others_same.
  - intros k' Hne. split; [by apply lookup_delete_ne|by apply entries_others].
Qed.

(** X9. How the callbacks move the size of the time index in a reachable
    state: [onAdd] of a tracked key keeps it, [onAdd] of an untracked key
    grows it by one, [onRemove] of a tracked key shrinks it by one and
    [onRemove] of an untracked key keeps it. *)
Theorem index_size_steps s k (v : TValue) :
  reachable (TValue := TValue) s →
  ∃ sa sr,
    onAdd {| key := k; value := v |} s = Some (tt, sa) ∧
    onRemove k s = Some (tt, sr) ∧
    length (_keyIndex sa) =
      match _keys s !! k with
      | Some _ => length (_keyIndex s)
      | None => S (length (_keyIndex s))
      end ∧
    length (_keyIndex s) =
      match _keys s !! k with
      | Some _ => S (length (_keyIndex sr))
      | None => length (_keyIndex sr)
      end.
Proof.
  intros Hwf%reachable_wf. rewrite onAdd_spec, onRemove_spec by done.
  eexists _, _. do 2 (split; [done|]). cbn [_keyIndex key value].
  rewrite length_place.
  pose proof (length_entries_others k (_keyIndex s)) as Hlen.
  destruct (_keys s !! k) as [it|] eqn:Hk.
  - destruct (wf_entries _ _ _ Hwf Hk) as [t Ht]. rewrite Ht in Hlen.
    simpl in Hlen. lia.
  - rewrite (wf_no_entries _ _ Hwf Hk) in Hlen. simpl in Hlen. lia.
Qed.

(** X10. Expiry only grows with time: in a reachable state, if [onIsValid]
    invalidates a key at [now] it does so at every later time, and what
    [onReplace] reports at [now] it reports at every later time. *)
Theorem expiry_monotone s now now' :
  reachable (TValue := TValue) s →
  now ≤ now' →
  (∀ k, onIsValid now {| va_key := k; isValid := true |} s =
          Some ({| va_key := k; isValid := false |}, s) →
        onIsValid now' {| va_key := k; isValid := true |} s =
          Some ({| va_key := k; isValid := false |}, s)) ∧
  (∀ elems, ∃ r r',
     onReplace now elems s = Some (r, s) ∧
     onReplace now' elems s = Some (r', s) ∧
     r ⊆ r').
Proof.
  intros Hwf%reachable_wf Hle. split.
  - intros k. rewrite !onIsValid_recorded by done. cbn [va_key].
    destruct (recorded s !! k) as [t|]; [|done].
    destruct (Z.leb_spec t now); [|done].
    by replace (t <=? now') with true by (symmetry; apply Z.leb_le; lia).
  - intros elems. rewrite !onReplace_recorded by done.
    eexists _, _. do 2 (split; [done|]).
    apply union_mono_l. intros k. rewrite !elem_of_dom.
    intros [t [Ht Hlt]%map_lookup_filter_Some]. exists t.
    apply map_lookup_filter_Some. split; [done|]. simpl in *. lia.
Qed.

(** X11. Whatever a sweep reports, the validity check rejects: in a
    reachable state every key that [onReplace] adds at [now] to an empty
    collection is invalidated by [onIsValid] at [now]. *)
Theorem candidates_are_invalid s now :
  reachable (TValue := TValue) s →
  ∃ r, onReplace now ∅ s = Some (r, s) ∧
       ∀ k b, k ∈ r →
         onIsValid now {| va_key := k; isValid := b |} s =
           Some ({| va_key := k; isValid := false |}, s).
Proof.
  intros Hwf%reachable_wf. rewrite onReplace_recorded by done.
  eexists. split; [done|]. intros k b.
  rewrite elem_of_union, elem_of_dom.
  intros [?%not_elem_of_empty|[t [Ht Hlt]%map_lookup_filter_Some]]; [done|].
  rewrite onIsValid_recorded by done. cbn [va_key].
  unfold Timestamp in *. rewrite Ht.
  simpl in Hlt. by replace (t <=? now) with true by (symmetry; apply Z.leb_le; lia).
Qed.

End Recorded.

Section Collection.

Context {TKey : Type} `{Countable TKey}.

(** X12. In any state, reachable or not, [onReplace] is defined, returns the
    state it was given and only adds to the caller's collection: every key
    that was in it is still there, and every key added is the key of a node
    of the time index with a timestamp before [now]. *)
Theorem onReplace_only_adds (s : State TKey) now (elems : gset TKey) :
  ∃ r, onReplace now elems s = Some (r, s) ∧
       elems ⊆ r ∧
       ∀ k, k ∈ r → k ∈ elems ∨
                    ∃ n, n ∈ _keyIndex s ∧ second n = k ∧ first n < now.
Proof.
  eexists. split; [done|]. split; [apply sweep_mono|].
  generalize (_keyIndex s). intros l. revert elems.
  induction l as [|m l IH]; intros elems k; cbn [sweep]; [by left|].
  destruct (first m <? now) eqn:E; [|by left].
  apply Z.ltb_lt in E.
  intros [[?|Hk%elem_of_singleton]%elem_of_union|(n & Hn & ? & ?)]%IH.
  - by left.
  - right. exists m. split; [left|done].
  - right. exists n. split; [by right|done].
Qed.

End Collection.

Section Runs.

Context {TKey : Type} `{Countable TKey}.
Context {TValue : Type} `{Expiring TValue}.
Implicit Types (s : State TKey) (ops : list (Op TKey TValue)).

Lemma run_wf_defined ops s : wf s → ∃ s', run ops s = Some s' ∧ wf s'.
Proof.
  revert s. induction ops as [|o ops IH]; intros s Hwf; [by exists s|].
  cbn [run]. destruct (exec_total s o Hwf) as [[[] s1] E]. rewrite E.
  apply IH. by eapply exec_wf.
Qed.

(** X13. Reads leave no trace: from a reachable state, a sequence of calls
    ends in the same state as the sequence with every [onGet], [onIsValid]
    and [onReplace] call taken out. In particular a get never refreshes an
    expiration. *)
Theorem reads_leave_no_trace s ops :
  reachable s →
  run ops s = run (filter (λ o, mutates o = true) ops) s.
Proof.
  intros Hwf%reachable_wf. revert s Hwf.
  induction ops as [|o ops IH]; intros s Hwf; [done|].
  rewrite filter_cons.
  destruct o as [args|k|k| |now va|now elems]; cbn [mutates];
    (rewrite decide_True by done) || (rewrite decide_False by done).
  - rewrite !run_add by done. apply IH. by apply wf_add.
  - rewrite !(run_remove (TValue := TValue)) by done. apply IH.
    by apply wf_remove.
  - by apply IH.
  - apply IH, wf_init.
  - cbn [run exec]. unfold bind. rewrite onIsValid_recorded by done.
    by apply IH.
  - by apply IH.
Qed.

(** X14. No sequence of calls on a freshly constructed strategy is ever
    undefined: no callback erases or dereferences an iterator that designates
    no node, and the sequence ends in a state. *)
Theorem run_never_undefined ops :
  ∃ s', run ops init = Some s' ∧ reachable s'.
Proof.
  destruct (run_wf_defined ops init wf_init) as (s' & E & _).
  exists s'. split; [done|].
  apply (run_reachable ops init); [apply reachable_init|done].
Qed.

End Runs.

(** ** The further results at the concrete instance *)

Lemma reachable_time_ordered_witness :
  reachable (TValue := Demo.Session) Demo.three ∧
  (0 < 2)%nat ∧
  _keyIndex Demo.three !! 0%nat = Some (mkNode 2%nat 1 2%nat) ∧
  _keyIndex Demo.three !! 2%nat = Some (mkNode 3%nat 20 3%nat) ∧
  first (mkNode 2%nat 1 2%nat) ≤ first (mkNode 3%nat 20 3%nat).
Proof.
  assert (0 < 2)%nat as Hij by lia.
  assert (_keyIndex Demo.three !! 0%nat = Some (mkNode 2%nat 1 2%nat)) as Hi
    by reflexivity.
  assert (_keyIndex Demo.three !! 2%nat = Some (mkNode 3%nat 20 3%nat)) as Hj
    by reflexivity.
  split; [exact three_reachable|]. do 3 (split; [done|]).
  exact (reachable_time_ordered (TValue := Demo.Session) Demo.three 0 2 _ _
           three_reachable Hij Hi Hj).
Defined.

Lemma onAdd_records_witness :
  reachable (TValue := Demo.Session) Demo.three ∧
  ∃ s', onAdd (mkKeyValueArgs 2%nat (Demo.mkSession 0 30)) Demo.three
          = Some (tt, s') ∧
        recorded s' = <[2%nat := 30]> (recorded Demo.three).
Proof.
  split; [exact three_reachable|].
  exact (onAdd_records Demo.three 2%nat (Demo.mkSession 0 30) three_reachable).
Defined.

Lemma onRemove_records_witness :
  reachable (TValue := Demo.Session) Demo.three ∧
  ∃ s', onRemove 2%nat Demo.three = Some (tt, s') ∧
        recorded s' = delete 2%nat (recorded Demo.three).
Proof.
  split; [exact three_reachable|].
  exact (onRemove_records (TValue := Demo.Session) Demo.three 2%nat
           three_reachable).
Defined.

Lemma queries_read_record_witness :
  reachable (TValue := Demo.Session) Demo.three ∧
  onIsValid 10 (mkValidArgs 1%nat true) Demo.three =
    Some (match recorded Demo.three !! 1%nat with
          | Some t => if t <=? 10 then invalidate (mkValidArgs 1%nat true)
                      else mkValidArgs 1%nat true
          | None => mkValidArgs 1%nat true
          end, Demo.three) ∧
  onReplace 10 ∅ Demo.three =
    Some (∅ ∪ dom (filter (λ kt, kt.2 < 10) (recorded Demo.three)), Demo.three).
Proof.
  split; [exact three_reachable|].
  exact (queries_read_record (TValue := Demo.Session) Demo.three 10
           (mkValidArgs 1%nat true) ∅ three_reachable).
Defined.

Lemma adds_commute_witness :
  reachable (TValue := Demo.Session) Demo.three ∧
  4%nat ≠ 5%nat ∧
  ∃ s1 s2,
    run [Demo.add 4 10; Demo.add 5 10] Demo.three = Some s1 ∧
    run [Demo.add 5 10; Demo.add 4 10] Demo.three = Some s2 ∧
    recorded s1 = recorded s2 ∧
    (∀ now va, fst <$> onIsValid now va s1 = fst <$> onIsValid now va s2) ∧
    (∀ now elems, fst <$> onReplace now elems s1 = fst <$> onReplace now elems s2).
Proof.
  assert (4%nat ≠ 5%nat) as Hne by lia.
  split; [exact three_reachable|]. split; [exact Hne|].
  exact (adds_commute Demo.three 4%nat (Demo.mkSession 0 10)
           5%nat (Demo.mkSession 0 10) three_reachable Hne).
Defined.

Lemma overwrite_is_remove_then_add_witness :
  reachable (TValue := Demo.Session) Demo.three ∧
  ∃ s1 s2,
    onAdd (mkKeyValueArgs 3%nat (Demo.mkSession 0 5)) Demo.three = Some (tt, s1) ∧
    run [Remove 3%nat; Demo.add 3 5] Demo.three = Some s2 ∧
    contents (_keyIndex s1) = contents (_keyIndex s2) ∧
    dom (_keys s1) = dom (_keys s2) ∧
    recorded s1 = recorded s2.
Proof.
  split; [exact three_reachable|].
  exact (overwrite_is_remove_then_add Demo.three 3%nat (Demo.mkSession 0 5)
           three_reachable).
Defined.

Lemma add_remove_roundtrip_witness :
  reachable (TValue := Demo.Session) Demo.three ∧
  _keys Demo.three !! 7%nat = None ∧
  run [Demo.add 7 10; Remove 7%nat] Demo.three = Some Demo.three.
Proof.
  assert (_keys Demo.three !! 7%nat = None) as Hk by reflexivity.
  split; [exact three_reachable|]. split; [exact Hk|].
  exact (add_remove_roundtrip Demo.three 7%nat (Demo.mkSession 0 10)
           three_reachable Hk).
Defined.

Lemma onRemove_frame_witness :
  reachable (TValue := Demo.Session) Demo.ties ∧
  2%nat ≠ 1%nat ∧
  ∃ s',
    onRemove 1%nat Demo.ties = Some (tt, s') ∧
    entries 1%nat (_keyIndex s') = [] ∧
    _keys s' !! 2%nat = _keys Demo.ties !! 2%nat ∧
    entries 2%nat (_keyIndex s') = entries 2%nat (_keyIndex Demo.ties).
Proof.
  assert (2%nat ≠ 1%nat) as Hne by lia.
  split; [exact ties_reachable|]. split; [exact Hne|].
  destruct (onRemove_frame (TValue := Demo.Session) Demo.ties 1%nat
              ties_reachable) as (s' & Hrm & Hgone & Hframe).
  exists s'. split; [exact Hrm|]. split; [exact Hgone|].
  exact (Hframe 2%nat Hne).
Defined.

Lemma index_size_steps_witness :
  reachable (TValue := Demo.Session) Demo.three ∧
  ∃ sa sr,
    onAdd (mkKeyValueArgs 2%nat (Demo.mkSession 0 30)) Demo.three = Some (tt, sa) ∧
    onRemove 2%nat Demo.three = Some (tt, sr) ∧
    length (_keyIndex sa) =
      match _keys Demo.three !! 2%nat with
      | Some _ => length (_keyIndex Demo.three)
      | None => S (length (_keyIndex Demo.three))
      end ∧
    length (_keyIndex Demo.three) =
      match _keys Demo.three !! 2%nat with
      | Some _ => S (length (_keyIndex sr))
      | None => length (_keyIndex sr)
      end.
Proof.
  split; [exact three_reachable|].
  exact (index_size_steps Demo.three 2%nat (Demo.mkSession 0 30)
           three_reachable).
Defined.

Lemma expiry_monotone_witness :
  reachable (TValue := Demo.Session) Demo.three ∧
  5 ≤ 15 ∧
  (∀ k, onIsValid 5 (mkValidArgs k true) Demo.three =
          Some (mkValidArgs k false, Demo.three) →
        onIsValid 15 (mkValidArgs k true) Demo.three =
          Some (mkValidArgs k false, Demo.three)) ∧
  (∀ elems, ∃ r r',
     onReplace 5 elems Demo.three = Some (r, Demo.three) ∧
     onReplace 15 elems Demo.three = Some (r', Demo.three) ∧
     r ⊆ r').
Proof.
  assert (5 ≤ 15) as Hle by lia.
  split; [exact three_reachable|]. split; [exact Hle|].
  exact (expiry_monotone (TValue := Demo.Session) Demo.three 5 15
           three_reachable Hle).
Defined.

Lemma candidates_are_invalid_witness :
  reachable (TValue := Demo.Session) Demo.three ∧
  ∃ r, onReplace 15 ∅ Demo.three = Some (r, Demo.three) ∧
       ∀ k b, k ∈ r →
         onIsValid 15 (mkValidArgs k b) Demo.three =
           Some (mkValidArgs k false, Demo.three).
Proof.
  split; [exact three_reachable|].
  exact (candidates_are_invalid (TValue := Demo.Session) Demo.three 15
           three_reachable).
Defined.

Lemma reads_leave_no_trace_witness :
  reachable (TValue := Demo.Session) Demo.three ∧
  run [Get 2%nat; Demo.add 2 30; IsValid 40 (mkValidArgs 2%nat true);
       Replace 40 ∅; Remove 1%nat; Get 1%nat] Demo.three
  = run [Demo.add 2 30; Remove 1%nat] Demo.three.
Proof.
  split; [exact three_reachable|].
  exact (reads_leave_no_trace Demo.three
           [Get 2%nat; Demo.add 2 30; IsValid 40 (mkValidArgs 2%nat true);
            Replace 40 ∅; Remove 1%nat; Get 1%nat] three_reachable).
Defined.
